(** * Rule cascades over weighted rewrite rules

    A verification development for [pynini/lib/rule_cascade.py]: the class
    [RuleCascade] holds a FAR archive handle and an ordered list of rewrite
    rules, and applies the rules in order to an input string.

    The development has three layers.
    - The automaton library ([pynini], [pynini.lib.rewrite]) is an interface,
      the class [Pynini]; the methods of [RuleCascade] are embedded once, over
      any implementation of it, in a state-and-exception monad whose state
      carries the object's attributes, the library's default token type and
      a ghost log of the calls made into the library.
    - [PathModel] implements the interface on finite weighted path sets.
    - The theorems come last. *)

From Stdlib Require Import ZArith String Ascii List Lia.
From stdpp Require Import base option list gmap strings sorting.

Local Open Scope Z_scope.

(** ** Exceptions and results *)

(** Failures raised inside the library: by the archive reader, by a
    composition that leaves no path, by a unique-result extraction that
    finds a tie, and by an extraction from a lattice that has no path. *)
Inductive LibraryFailure :=
| ArchiveError
| ComposeFailure
| AmbiguousResultError
| NoPathError.

(** [Error msg] is the module's own [class Error(Exception)];
    [LibraryError] stands for an exception coming out of the library. *)
Inductive Exn :=
| Error (msg : string)
| LibraryError (why : LibraryFailure).

Inductive Result (A : Type) :=
| Returns (a : A)
| Raises (e : Exn).
Arguments Returns {A} a.
Arguments Raises {A} e.

Definition result_map {A B} (f : A → B) (r : Result A) : Result B :=
  match r with
  | Returns a => Returns (f a)
  | Raises e => Raises e
  end.

Definition result_bind {A B} (r : Result A) (f : A → Result B) : Result B :=
  match r with
  | Returns a => f a
  | Raises e => Raises e
  end.

(** ** The library interface *)

(** [pynini.FstLike = Union[Fst, str]]. *)
Inductive FstLike (F : Type) :=
| RawString (s : string)
| Prebuilt (f : F).
Arguments RawString {F} s.
Arguments Prebuilt {F} f.

Inductive SortType := ILabel | OLabel.
Inductive ComposeFilter := Sequence | AltSequence.

Definition NO_STATE_ID : Z := -1.

(** The functions of [pynini] and [pynini.lib.rewrite] that the cascade
    calls.  Those that compile a string read the library's default token
    type, which is passed as their first argument. *)
Class Pynini := {
  Fst : Type;
  TokenType : Type;
  arcsort : SortType → Fst → Fst;
  start : Fst → Z;
  accep : TokenType → string → option TokenType → Result Fst;
  intersect : TokenType → Fst → FstLike Fst → ComposeFilter → Result Fst;
  rewrite_lattice :
    TokenType → FstLike Fst → Fst → option TokenType → Result Fst;
  lattice_to_dfa : Fst → bool → Z → Result Fst;
  lattice_to_nshortest : Fst → Z → Result Fst;
  lattice_to_strings : TokenType → Fst → option TokenType → Result (list string);
  lattice_to_top_string : TokenType → Fst → option TokenType → Result string;
  lattice_to_one_top_string :
    TokenType → Fst → option TokenType → Result string
}.

(** Calls into the library, as recorded in the ghost log. *)
Inductive Event :=
| CallFarFind (key : string)
| CallFarGetFst
| CallArcsort (sort_type : SortType)
| CallAccep
| CallIntersect (compose_filter : ComposeFilter)
| CallRewriteLattice
| CallLatticeToDfa (optimal_only : bool)
| CallLatticeToNshortest
| CallLatticeToStrings
| CallLatticeToTopString
| CallLatticeToOneTopString.

Section Cascade.
Context `{Pynini}.

(** ** The archive *)

(** Modelled from the spec: [pynini.Far] is not part of the sources at hand.
    The archive resolves a name to a relation or reports that there is none;
    the reader keeps the position of the last successful [find], which
    [get_fst] reads. *)
Record Far := {
  entries : gmap string Fst;
  position : option string
}.

Definition far_find_at (a : Far) (key : string) : bool * Far :=
  match entries a !! key with
  | Some _ => (true, {| entries := entries a; position := Some key |})
  | None => (false, {| entries := entries a; position := None |})
  end.

Definition far_fst_at (a : Far) : option Fst :=
  position a ≫= λ key, entries a !! key.

(** ** Program state *)

Record RuleCascade := {
  far : Far;
  rules : list Fst
}.

Record World := {
  self : RuleCascade;
  default_token_type : TokenType;
  trace : list Event
}.

Definition M (A : Type) : Type := World → Result A * World.

Definition ret {A} (a : A) : M A := λ w, (Returns a, w).

Definition raise {A} (e : Exn) : M A := λ w, (Raises e, w).

Definition bind {A B} (m : M A) (k : A → M B) : M B :=
  λ w, match m w with
       | (Returns a, w') => k a w'
       | (Raises e, w') => (Raises e, w')
       end.

Notation "x ←← m ;; k" := (bind m (λ x, k))
  (at level 100, m at next level, right associativity).
Notation "m ;;; k" := (bind m (λ _, k))
  (at level 100, right associativity).

Definition log (e : Event) (w : World) : World :=
  {| self := self w;
     default_token_type := default_token_type w;
     trace := trace w ++ [e] |}.

Definition set_self (c : RuleCascade) (w : World) : World :=
  {| self := c;
     default_token_type := default_token_type w;
     trace := trace w |}.

Definition set_default_token_type (t : TokenType) (w : World) : World :=
  {| self := self w; default_token_type := t; trace := trace w |}.

(** A pure library call: logged, then returns or raises. *)
Definition call {A} (e : Event) (f : TokenType → Result A) : M A :=
  λ w, (f (default_token_type w), log e w).

(** [with pynini.default_token_type(t): body]: the default is replaced for
    the extent of [body] and restored on the way out, exception or not. *)
Definition with_default_token_type {A} (t : TokenType) (body : M A) : M A :=
  λ w, let '(r, w') := body (set_default_token_type t w) in
       (r, set_default_token_type (default_token_type w) w').

(** [self.rules], [self.rules.clear()], [self.rules.append(f)]. *)
Definition get_rules : M (list Fst) := λ w, (Returns (rules (self w)), w).

Definition rules_clear : M unit :=
  λ w, (Returns tt, set_self {| far := far (self w); rules := [] |} w).

Definition rules_append (f : Fst) : M unit :=
  λ w, (Returns tt,
        set_self {| far := far (self w); rules := rules (self w) ++ [f] |} w).

(** [self.far.find(key)] and [self.far.get_fst()]. *)
Definition far_find (key : string) : M bool :=
  λ w, let '(found, a) := far_find_at (far (self w)) key in
       (Returns found,
        log (CallFarFind key)
          (set_self {| far := a; rules := rules (self w) |} w)).

Definition far_get_fst : M Fst :=
  λ w, (match far_fst_at (far (self w)) with
        | Some f => Returns f
        | None => Raises (LibraryError ArchiveError)
        end, log CallFarGetFst w).

(** ** [RuleCascade.set_rules] *)

Fixpoint set_rules_loop (names : list string) : M unit :=
  match names with
  | [] => ret tt
  | rule :: rest =>
      found ←← far_find rule ;;
      if found : bool then
        f ←← far_get_fst ;;
        g ←← call (CallArcsort ILabel) (λ _, Returns (arcsort ILabel f)) ;;
        rules_append g ;;;
        set_rules_loop rest
      else
        raise (Error ("Cannot find rule: " +:+ rule))
  end.

Definition set_rules (names : list string) : M unit :=
  rules_clear ;;;
  set_rules_loop names.

(** ** [RuleCascade._rewrite_lattice] *)

Fixpoint rewrite_loop (lattice : FstLike Fst) (rs : list Fst)
    (token_type : option TokenType) : M (FstLike Fst) :=
  match rs with
  | [] => ret lattice
  | rule :: rest =>
      l ←← call CallRewriteLattice
             (λ d, rewrite_lattice d lattice rule token_type) ;;
      rewrite_loop (Prebuilt l) rest token_type
  end.

Definition _rewrite_lattice (string : FstLike Fst)
    (token_type : option TokenType) : M Fst :=
  rs ←← get_rules ;;
  match rs with
  | [] => raise (Error "No rules requested")
  | _ :: _ =>
      lattice ←← rewrite_loop string rs token_type ;;
      match lattice with
      | Prebuilt f => ret f
      | RawString s => call CallAccep (λ d, accep d s token_type)
      end
  end.

(** ** The rewrite functions *)

Definition matches (istring ostring : FstLike Fst)
    (input_token_type output_token_type : option TokenType) : M bool :=
  lattice ←← _rewrite_lattice istring input_token_type ;;
  lattice ←←
    match output_token_type with
    | None =>
        call (CallIntersect Sequence)
          (λ d, intersect d lattice ostring Sequence)
    | Some t =>
        with_default_token_type t
          (call (CallIntersect Sequence)
             (λ d, intersect d lattice ostring Sequence))
    end ;;
  ret (bool_decide (start lattice ≠ NO_STATE_ID)).

Definition rewrites (string : FstLike Fst)
    (input_token_type output_token_type : option TokenType)
    (state_multiplier : Z) : M (list String.string) :=
  lattice ←← _rewrite_lattice string input_token_type ;;
  lattice ←← call (CallLatticeToDfa false)
               (λ _, lattice_to_dfa lattice false state_multiplier) ;;
  call CallLatticeToStrings
    (λ d, lattice_to_strings d lattice output_token_type).

Definition top_rewrites (string : FstLike Fst) (nshortest : Z)
    (input_token_type output_token_type : option TokenType)
    : M (list String.string) :=
  lattice ←← _rewrite_lattice string input_token_type ;;
  lattice ←← call CallLatticeToNshortest
               (λ _, lattice_to_nshortest lattice nshortest) ;;
  call CallLatticeToStrings
    (λ d, lattice_to_strings d lattice output_token_type).

Definition top_rewrite (string : FstLike Fst)
    (input_token_type output_token_type : option TokenType)
    : M String.string :=
  lattice ←← _rewrite_lattice string input_token_type ;;
  call CallLatticeToTopString
    (λ d, lattice_to_top_string d lattice output_token_type).

Definition one_top_rewrite (string : FstLike Fst)
    (input_token_type output_token_type : option TokenType)
    (state_multiplier : Z) : M String.string :=
  lattice ←← _rewrite_lattice string input_token_type ;;
  lattice ←← call (CallLatticeToDfa true)
               (λ _, lattice_to_dfa lattice true state_multiplier) ;;
  call CallLatticeToOneTopString
    (λ d, lattice_to_one_top_string d lattice output_token_type).

Definition optimal_rewrites (string : FstLike Fst)
    (input_token_type output_token_type : option TokenType)
    (state_multiplier : Z) : M (list String.string) :=
  lattice ←← _rewrite_lattice string input_token_type ;;
  lattice ←← call (CallLatticeToDfa true)
               (λ _, lattice_to_dfa lattice true state_multiplier) ;;
  call CallLatticeToStrings
    (λ d, lattice_to_strings d lattice output_token_type).

(** ** The rewrite family as one type *)

Inductive RewriteOp :=
| Matches (istring ostring : FstLike Fst)
    (input_token_type output_token_type : option TokenType)
| Rewrites (string : FstLike Fst)
    (input_token_type output_token_type : option TokenType)
    (state_multiplier : Z)
| TopRewrites (string : FstLike Fst) (nshortest : Z)
    (input_token_type output_token_type : option TokenType)
| TopRewrite (string : FstLike Fst)
    (input_token_type output_token_type : option TokenType)
| OneTopRewrite (string : FstLike Fst)
    (input_token_type output_token_type : option TokenType)
    (state_multiplier : Z)
| OptimalRewrites (string : FstLike Fst)
    (input_token_type output_token_type : option TokenType)
    (state_multiplier : Z).

Inductive Answer :=
| Truth (b : bool)
| OneString (s : String.string)
| Strings (l : list String.string).

Definition run (op : RewriteOp) : M Answer :=
  match op with
  | Matches i o it ot => b ←← matches i o it ot ;; ret (Truth b)
  | Rewrites i it ot sm => l ←← rewrites i it ot sm ;; ret (Strings l)
  | TopRewrites i n it ot => l ←← top_rewrites i n it ot ;; ret (Strings l)
  | TopRewrite i it ot => s ←← top_rewrite i it ot ;; ret (OneString s)
  | OneTopRewrite i it ot sm =>
      s ←← one_top_rewrite i it ot sm ;; ret (OneString s)
  | OptimalRewrites i it ot sm =>
      l ←← optimal_rewrites i it ot sm ;; ret (Strings l)
  end.

(** ** Specification vocabulary *)

(** What the log shows when [names] are resolved one after the other. *)
Definition resolve_events (names : list String.string) : list Event :=
  names ≫= λ n, [CallFarFind n; CallFarGetFst; CallArcsort ILabel].

(** [f] is the relation the archive holds under [n], arc-sorted on input
    labels. *)
Definition resolves_to (archive : gmap String.string Fst)
    (n : String.string) (f : Fst) : Prop :=
  ∃ g, archive !! n = Some g ∧ f = arcsort ILabel g.

Definition is_arcsort (e : Event) : Prop := ∃ t, e = CallArcsort t.

(** The lattice builder in the words of the specification:
    [lattice_i = compose(lattice_{i-1}, rules[i])], a left fold over the
    rule list from the input, and the outcome coerced to an acceptor when it
    is not an automaton. *)
Definition compose_step (d : TokenType) (token_type : option TokenType)
    (acc : Result (FstLike Fst)) (rule : Fst) : Result (FstLike Fst) :=
  result_bind acc
    (λ lattice, result_map Prebuilt (rewrite_lattice d lattice rule token_type)).

Definition coerce_to_acceptor (d : TokenType) (token_type : option TokenType)
    (lattice : FstLike Fst) : Result Fst :=
  match lattice with
  | Prebuilt f => Returns f
  | RawString s => accep d s token_type
  end.

Definition build_lattice (d : TokenType) (string : FstLike Fst)
    (rs : list Fst) (token_type : option TokenType) : Result Fst :=
  result_bind (foldl (compose_step d token_type) (Returns string) rs)
    (coerce_to_acceptor d token_type).

(** [w'] comes after [w] without a change to the cascade or to the default
    token type, and without a call that sorts arcs. *)
Definition extends_without_sorting (w w' : World) : Prop :=
  self w' = self w
  ∧ default_token_type w' = default_token_type w
  ∧ ∃ evs, trace w' = trace w ++ evs ∧ Forall (λ e, ¬ is_arcsort e) evs.

Definition framed {A} (m : M A) : Prop :=
  ∀ w, extends_without_sorting w (m w).2.

(** ** Vocabulary for the laws of the cascade *)

(** The world with the rule list replaced. *)
Definition with_rules (rs : list Fst) (w : World) : World :=
  set_self {| far := far (self w); rules := rs |} w.

(** The relations of the names up to the first one the archive does not
    have, arc-sorted on input labels, and that name if there is one. *)
Fixpoint resolved_prefix (archive : gmap String.string Fst)
    (names : list String.string) : list Fst :=
  match names with
  | [] => []
  | n :: rest =>
      match archive !! n with
      | Some g => arcsort ILabel g :: resolved_prefix archive rest
      | None => []
      end
  end.

Fixpoint first_missing (archive : gmap String.string Fst)
    (names : list String.string) : option String.string :=
  match names with
  | [] => None
  | n :: rest =>
      match archive !! n with
      | Some _ => first_missing archive rest
      | None => Some n
      end
  end.

(** The calls that resolving a name makes. *)
Definition is_resolution (e : Event) : Prop :=
  match e with
  | CallFarFind _ | CallFarGetFst | CallArcsort ILabel => True
  | _ => False
  end.

(** The input of a rewrite operation and its token type. *)
Definition op_input (op : RewriteOp) : FstLike Fst :=
  match op with
  | Matches i _ _ _ | Rewrites i _ _ _ | TopRewrites i _ _ _
  | TopRewrite i _ _ | OneTopRewrite i _ _ _ | OptimalRewrites i _ _ _ => i
  end.

Definition op_input_token_type (op : RewriteOp) : option TokenType :=
  match op with
  | Matches _ _ it _ | Rewrites _ it _ _ | TopRewrites _ _ it _
  | TopRewrite _ it _ | OneTopRewrite _ it _ _
  | OptimalRewrites _ it _ _ => it
  end.

(** The extraction calls of a rewrite operation, after the lattice is
    built. *)
Definition op_calls (op : RewriteOp) : list Event :=
  match op with
  | Matches _ _ _ _ => [CallIntersect Sequence]
  | Rewrites _ _ _ _ => [CallLatticeToDfa false; CallLatticeToStrings]
  | TopRewrites _ _ _ _ => [CallLatticeToNshortest; CallLatticeToStrings]
  | TopRewrite _ _ _ => [CallLatticeToTopString]
  | OneTopRewrite _ _ _ _ =>
      [CallLatticeToDfa true; CallLatticeToOneTopString]
  | OptimalRewrites _ _ _ _ => [CallLatticeToDfa true; CallLatticeToStrings]
  end.

End Cascade.

(** [RuleCascade.__init__]: the archive is opened and the rule list is
    empty. *)
Definition RuleCascade_init `{Pynini} (archive : gmap string Fst)
    : RuleCascade :=
  {| far := {| entries := archive; position := None |}; rules := [] |}.

Definition initial_world `{Pynini} (archive : gmap string Fst)
    (default : TokenType) : World :=
  {| self := RuleCascade_init archive;
     default_token_type := default;
     trace := [] |}.

(** ** A model of the library on finite weighted path sets *)

Module PathModel.

(** Labels are byte values and weights are taken in the tropical semiring,
    with integers standing for the weights: times is [+], plus is [min],
    and the lowest weight is the best. *)
Definition Label := ascii.
Definition Weight := Z.

Record Path := {
  ilabels : list Label;
  olabels : list Label;
  weight : Weight
}.

Global Instance Path_eq_dec : EqDecision Path.
Proof. solve_decision. Defined.

(** Modelled from the spec: the automaton type is not part of the sources
    at hand.  A weighted relation maps input strings to (output string,
    weight) pairs; the model keeps the finite list of its successful paths,
    each with its input labels, its output labels and its weight, and the
    property of being arc-sorted on input labels. *)
Record WFst := {
  paths : list Path;
  ilabel_sorted : bool
}.

(** Modelled from the spec: a token scheme turns a string into the label
    sequence of its acceptor and a label sequence back into a string. *)
Record Scheme := {
  compile : string → list Label;
  render : list Label → string
}.

Definition byte : Scheme :=
  {| compile := list_ascii_of_string; render := string_of_list_ascii |}.



Definition scheme_or (d : Scheme) (token_type : option Scheme) : Scheme :=
  default d token_type.

Definition string_path (l : list Label) : Path :=
  {| ilabels := l; olabels := l; weight := 0 |}.

(** Modelled from the spec: [toAcceptor(string, tokenScheme)]. *)
Definition accep_fst (t : Scheme) (s : string) : WFst :=
  {| paths := [string_path (compile t s)]; ilabel_sorted := true |}.

Definition to_fst (t : Scheme) (x : FstLike WFst) : WFst :=
  match x with
  | RawString s => accep_fst t s
  | Prebuilt f => f
  end.

(** Modelled from the spec: [sortArcsByInputLabel] leaves the relation as it
    is and makes it arc-sorted on the side asked for. *)
Definition arcsort_fst (sort_type : SortType) (f : WFst) : WFst :=
  {| paths := paths f;
     ilabel_sorted := match sort_type with
                      | ILabel => true
                      | OLabel => ilabel_sorted f
                      end |}.

(** Modelled from the spec: [compose(a, b)] relates an input of [a] to an
    output of [b] through a string that [a] writes and [b] reads, at the
    product of the two weights. *)
Definition compose_paths (a b : list Path) : list Path :=
  p ← a;
  q ← b;
  if decide (olabels p = ilabels q)
  then [{| ilabels := ilabels p;
           olabels := olabels q;
           weight := weight p + weight q |}]
  else [].

(** The lattice stands for the candidate outputs with their weights. *)
Definition project_output (ps : list Path) : list Path :=
  (λ p, {| ilabels := olabels p; olabels := olabels p; weight := weight p |})
    <$> ps.

(** Modelled from the spec: [lattice_i = compose(lattice_{i-1}, rules[i])];
    a rule that does not compose with what precedes it surfaces as a compose
    failure. *)
Definition rewrite_lattice_fst (d : Scheme) (lattice : FstLike WFst)
    (rule : WFst) (token_type : option Scheme) : Result WFst :=
  let composed :=
    project_output
      (compose_paths (paths (to_fst (scheme_or d token_type) lattice))
         (paths rule)) in
  match composed with
  | [] => Raises (LibraryError ComposeFailure)
  | _ :: _ => Returns {| paths := composed; ilabel_sorted := false |}
  end.

(** Modelled from the spec: the intersection with the output acceptor; an
    automaton without a successful path has no start state. *)
Definition intersect_fst (d : Scheme) (lattice : WFst)
    (other : FstLike WFst) (compose_filter : ComposeFilter) : Result WFst :=
  Returns {| paths := compose_paths (paths lattice) (paths (to_fst d other));
             ilabel_sorted := false |}.

Definition start_fst (f : WFst) : Z :=
  match paths f with
  | [] => NO_STATE_ID
  | _ :: _ => 0
  end.

(** The least element of a list of weights. *)
Definition min_of (ws : list Weight) : option Weight :=
  match ws with
  | [] => None
  | w :: ws' => Some (foldr Z.min w ws')
  end.

(** The weight of the best path of a lattice. *)
Definition optimum (ps : list Path) : option Weight :=
  min_of (weight <$> ps).

(** The weights a lattice gives to the output [k]. *)
Definition weights_of (k : list Label) (ps : list Path) : list Weight :=
  weight <$> filter (λ p, olabels p = k) ps.

(** Modelled from the spec: determinization merges the paths that spell the
    same output string and keeps every distinct output string, each at the
    least of its weights. *)
Definition determinize (ps : list Path) : list Path :=
  (λ k, {| ilabels := k;
           olabels := k;
           weight := default 0 (min_of (weights_of k ps)) |})
    <$> remove_dups (olabels <$> ps).

(** Modelled from the spec: only the strings tied at the optimal (lowest)
    weight are preserved. *)
Definition prune (ps : list Path) : list Path :=
  match optimum ps with
  | None => []
  | Some m => filter (λ p, weight p = m) ps
  end.

(** The label sequences that begin [k], [k] and the empty one included. *)
Fixpoint inits (k : list Label) : list (list Label) :=
  match k with
  | [] => [[]]
  | a :: k' => [] :: ((a ::.) <$> inits k')
  end.

(** Modelled from the spec: the state count of a determinized lattice.  A
    deterministic automaton has at most one state for each distinct
    beginning of its output strings; the model counts them all. *)
Definition dfa_states (ps : list Path) : Z :=
  Z.of_nat (length (remove_dups (ps ≫= λ p, inits (olabels p)))).

(** Modelled from the spec: the state count of a lattice before it is
    determinized.  The model keeps the successful paths of an automaton and
    not its states; an automaton without cycles has at least one state more
    than its longest path has labels, and the model counts that many, the
    least an automaton with these paths can have: a determinization that is
    within the bound in the model is within it for each of them. *)
Definition nfa_states (ps : list Path) : Z :=
  match ps with
  | [] => 0
  | _ :: _ => 1 + Z.of_nat (max_list ((λ p, length (olabels p)) <$> ps))
  end.

(** Modelled from the spec: the determinized lattice has at most
    [state_multiplier] times the states of the lattice. *)
Definition dfa_within_bound (ps : list Path) (state_multiplier : Z) : Prop :=
  dfa_states (determinize ps) ≤ state_multiplier * nfa_states ps.

Global Instance dfa_within_bound_dec ps state_multiplier :
  Decision (dfa_within_bound ps state_multiplier).
Proof. unfold dfa_within_bound. apply _. Defined.

(** Modelled from the spec: what a determinization returns when the bound
    would be exceeded, a best-effort, partial result: the strings, in their
    order, for which there are states left. *)
Fixpoint best_effort (bound : Z) (kept rest : list Path) : list Path :=
  match rest with
  | [] => kept
  | p :: rest' =>
      if decide (dfa_states (kept ++ [p]) ≤ bound)
      then best_effort bound (kept ++ [p]) rest'
      else kept
  end.

(** Modelled from the spec: [rewrite.lattice_to_dfa] determinizes within
    [state_multiplier] times the states of the lattice and, when only the
    optimal strings are asked for, prunes what it has.  Beyond the bound
    the result is partial; the warning that goes with it is not part of
    the model. *)
Definition lattice_to_dfa_fst (lattice : WFst) (optimal_only : bool)
    (state_multiplier : Z) : Result WFst :=
  let d :=
    if decide (dfa_within_bound (paths lattice) state_multiplier)
    then determinize (paths lattice)
    else best_effort (state_multiplier * nfa_states (paths lattice)) []
           (determinize (paths lattice)) in
  Returns {| paths := if optimal_only then prune d else d;
             ilabel_sorted := true |}.

Definition weight_le (p q : Path) : Prop := weight p ≤ weight q.

Global Instance weight_le_dec : RelDecision weight_le.
Proof. intros p q. unfold weight_le. apply _. Defined.

(** Modelled from the spec: [rewrite.lattice_to_nshortest]: the [n]
    lowest-weight paths, in non-decreasing weight order. *)
Definition lattice_to_nshortest_fst (lattice : WFst) (nshortest : Z)
    : Result WFst :=
  Returns {| paths := take (Z.to_nat nshortest)
                        (merge_sort weight_le (paths lattice));
             ilabel_sorted := false |}.

(** Modelled from the spec: [rewrite.lattice_to_strings] enumerates the
    accepted strings under the output token scheme. *)
Definition lattice_to_strings_fst (d : Scheme) (lattice : WFst)
    (token_type : option Scheme) : Result (list string) :=
  Returns ((λ p, render (scheme_or d token_type) (olabels p))
             <$> paths lattice).

(** The single best path: the first one among those of least weight. *)
Fixpoint best_path (ps : list Path) : option Path :=
  match ps with
  | [] => None
  | p :: ps' =>
      match best_path ps' with
      | Some q => if decide (weight q < weight p) then Some q else Some p
      | None => Some p
      end
  end.

(** Modelled from the spec: [rewrite.lattice_to_top_string]: the single
    best path, no determinization, no tie handling. *)
Definition lattice_to_top_string_fst (d : Scheme) (lattice : WFst)
    (token_type : option Scheme) : Result string :=
  match best_path (paths lattice) with
  | Some p => Returns (render (scheme_or d token_type) (olabels p))
  | None => Raises (LibraryError NoPathError)
  end.

(** Modelled from the spec: [rewrite.lattice_to_one_top_string] is given
    the determinized lattice of the optimal strings; more than one of them
    is an ambiguity, which is signalled.  It reads the first string and
    then looks for a second one: of a lattice that has lost every path to
    the state bound it reads the empty string. *)
Definition lattice_to_one_top_string_fst (d : Scheme) (lattice : WFst)
    (token_type : option Scheme) : Result string :=
  match paths lattice with
  | [] => Returns EmptyString
  | [p] => Returns (render (scheme_or d token_type) (olabels p))
  | _ :: _ :: _ => Raises (LibraryError AmbiguousResultError)
  end.

Global Instance path_model : Pynini := {|
  Fst := WFst;
  TokenType := Scheme;
  arcsort := arcsort_fst;
  start := start_fst;
  accep := λ d s token_type, Returns (accep_fst (scheme_or d token_type) s);
  intersect := intersect_fst;
  rewrite_lattice := rewrite_lattice_fst;
  lattice_to_dfa := lattice_to_dfa_fst;
  lattice_to_nshortest := lattice_to_nshortest_fst;
  lattice_to_strings := lattice_to_strings_fst;
  lattice_to_top_string := lattice_to_top_string_fst;
  lattice_to_one_top_string := lattice_to_one_top_string_fst
|}.

(** ** Specification vocabulary for lattices *)


(** The lattice has a unique best path. *)
Definition unique_best (ps : list Path) : Prop :=
  ∃ p, p ∈ ps ∧ ∀ q, q ∈ ps → q ≠ p → weight p < weight q.








(** ** Sample cascades *)

Module Samples.

Local Open Scope string_scope.

Definition arc (i o : string) (w : Weight) : Path :=
  {| ilabels := list_ascii_of_string i;
     olabels := list_ascii_of_string o;
     weight := w |}.

(** Digits to words, with a tie on [5] and none on [6]. *)
Definition digits : WFst :=
  {| paths := [arc "5" "five" 1; arc "5" "5" 1;
               arc "6" "six" 1; arc "6" "6" 2];
     ilabel_sorted := false |}.

Definition lowercase : WFst :=
  {| paths := [arc "five" "five" 0; arc "5" "5" 0;
               arc "six" "six" 0; arc "6" "6" 0];
     ilabel_sorted := false |}.

(** A rule that reads nothing [digits] writes. *)
Definition roman : WFst :=
  {| paths := [arc "v" "V" 0]; ilabel_sorted := false |}.

Definition archive : gmap string WFst :=
  <["digits" := digits]> (<["lowercase" := lowercase]>
    (<["roman" := roman]> ∅)).

Definition fresh : World := initial_world archive byte.

Definition configured : World :=
  (set_rules ["digits"; "lowercase"] fresh).2.

Definition mismatched : World :=
  (set_rules ["digits"; "roman"] fresh).2.



(** The lattice of the input [6] under [configured]. *)
Definition sixes : WFst :=
  {| paths := [arc "six" "six" 1; arc "6" "6" 2]; ilabel_sorted := false |}.

End Samples.

End PathModel.

(** * Facts about the cascade, over any implementation of the library *)

Section CascadeFacts.
Context `{Pynini}.

(** ** Resolving names *)

Lemma set_rules_loop_found rule rest w g :
  entries (far (self w)) !! rule = Some g →
  set_rules_loop (rule :: rest) w =
  set_rules_loop rest
    {| self :=
         {| far := {| entries := entries (far (self w));
                      position := Some rule |};
            rules := rules (self w) ++ [arcsort ILabel g] |};
       default_token_type := default_token_type w;
       trace := trace w ++ [CallFarFind rule; CallFarGetFst;
                            CallArcsort ILabel] |}.
Proof.
  intros Hg. cbn [set_rules_loop].
  unfold bind at 1. unfold far_find, far_find_at. rewrite Hg.
  unfold bind at 1. unfold far_get_fst, far_fst_at. cbn. rewrite Hg.
  unfold bind, call, rules_append, log, set_self. cbn.
  by rewrite <- !app_assoc.
Qed.

Lemma set_rules_loop_missing rule rest w :
  entries (far (self w)) !! rule = None →
  set_rules_loop (rule :: rest) w =
  (Raises (Error ("Cannot find rule: " +:+ rule)),
   {| self :=
        {| far := {| entries := entries (far (self w)); position := None |};
           rules := rules (self w) |};
      default_token_type := default_token_type w;
      trace := trace w ++ [CallFarFind rule] |}).
Proof.
  intros Hg. cbn [set_rules_loop].
  unfold bind at 1. unfold far_find, far_find_at. by rewrite Hg.
Qed.

Lemma set_rules_loop_prefix pre rest gs w :
  Forall2 (λ n g, entries (far (self w)) !! n = Some g) pre gs →
  ∃ w', set_rules_loop (pre ++ rest) w = set_rules_loop rest w'
        ∧ entries (far (self w')) = entries (far (self w))
        ∧ rules (self w') = rules (self w) ++ (arcsort ILabel <$> gs)
        ∧ default_token_type w' = default_token_type w
        ∧ trace w' = trace w ++ resolve_events pre.
Proof.
  revert gs w. induction pre as [|n pre IH]; intros gs w Hall.
  - apply Forall2_nil_inv_l in Hall as ->. exists w.
    unfold resolve_events. cbn. by rewrite !app_nil_r.
  - apply Forall2_cons_inv_l in Hall as (g & gs' & Hn & Hall & ->).
    cbn [app]. rewrite (set_rules_loop_found _ _ _ _ Hn).
    match goal with
    | |- context [set_rules_loop (pre ++ rest) ?w1] =>
        destruct (IH gs' w1) as (w' & Hrun & Hent & Hrules & Hdef & Htrace);
          [exact Hall|]
    end.
    exists w'. rewrite Hrun, Hent, Hrules, Hdef, Htrace. cbn.
    unfold resolve_events. cbn.
    by rewrite <- !app_assoc.
Qed.

(** Names that resolve, with the relations they resolve to. *)
Lemma resolved_names (archive : gmap string Fst) (names : list string) :
  Forall (λ n, is_Some (archive !! n)) names →
  ∃ gs : list Fst, Forall2 (λ n g, archive !! n = Some g) names gs.
Proof.
  induction 1 as [|n names [g Hg] _ [gs IH]].
  - by exists [].
  - exists (g :: gs). by constructor.
Qed.

(** A list with an unresolved name splits at the first one. *)
Lemma first_unresolved (archive : gmap string Fst) (names : list string) :
  Exists (λ n, archive !! n = None) names →
  ∃ pre bad post,
    names = pre ++ bad :: post
    ∧ Forall (λ n, is_Some (archive !! n)) pre
    ∧ archive !! bad = None.
Proof.
  induction names as [|n names IH]; intros Hex.
  - by apply Exists_nil in Hex.
  - destruct (archive !! n) as [g|] eqn:Hn.
    + apply Exists_cons in Hex as [Hex|Hex]; [congruence|].
      destruct (IH Hex) as (pre & bad & post & -> & Hpre & Hbad).
      exists (n :: pre), bad, post. split; [done|]. split; [|done].
      constructor; [by rewrite Hn|done].
    + exists [], n, names. by repeat split.
Qed.

Lemma resolves_to_fmap (archive : gmap string Fst) (names : list string)
    (gs : list Fst) :
  Forall2 (λ n g, archive !! n = Some g) names gs →
  Forall2 (resolves_to archive) names (arcsort ILabel <$> gs).
Proof.
  induction 1; cbn; constructor; [|done]. by eexists.
Qed.

(** ** Frames: what a rewrite operation leaves alone *)

Lemma extends_refl w : extends_without_sorting w w.
Proof.
  repeat split. exists []. by rewrite app_nil_r.
Qed.

Lemma extends_trans w1 w2 w3 :
  extends_without_sorting w1 w2 →
  extends_without_sorting w2 w3 →
  extends_without_sorting w1 w3.
Proof.
  intros (Hs1 & Hd1 & evs1 & Ht1 & Hq1) (Hs2 & Hd2 & evs2 & Ht2 & Hq2).
  split; [congruence|]. split; [congruence|].
  exists (evs1 ++ evs2). rewrite Ht2, Ht1, app_assoc. split; [done|].
  by apply Forall_app.
Qed.

Lemma framed_ret {A} (a : A) : framed (ret a).
Proof. intros w. apply extends_refl. Qed.

Lemma framed_raise {A} e : framed (raise (A:=A) e).
Proof. intros w. apply extends_refl. Qed.

Lemma framed_get_rules : framed get_rules.
Proof. intros w. apply extends_refl. Qed.

Lemma framed_bind {A B} (m : M A) (k : A → M B) :
  framed m → (∀ a, framed (k a)) → framed (bind m k).
Proof.
  intros Hm Hk w. unfold bind. specialize (Hm w).
  destruct (m w) as [[a|e] w1]; cbn in *; [|done].
  eapply extends_trans; [exact Hm|]. apply Hk.
Qed.

Lemma framed_call {A} e (f : TokenType → Result A) :
  ¬ is_arcsort e → framed (call e f).
Proof.
  intros He w. unfold call, log. cbn. repeat split.
  exists [e]. split; [done|]. by constructor.
Qed.

Lemma framed_with_default_token_type {A} t (body : M A) :
  framed body → framed (with_default_token_type t body).
Proof.
  intros Hb w. unfold with_default_token_type.
  specialize (Hb (set_default_token_type t w)).
  destruct (body _) as [r w1]. cbn in *.
  destruct Hb as (Hs & _ & evs & Ht & Hq). repeat split; [done|].
  by exists evs.
Qed.

Ltac not_arcsort := intros [? ?]; discriminate.

Lemma framed_rewrite_loop lattice rs token_type :
  framed (rewrite_loop lattice rs token_type).
Proof.
  revert lattice. induction rs as [|r rs IH]; intros lattice; cbn.
  - apply framed_ret.
  - apply framed_bind; [apply framed_call; not_arcsort|]. intros l. apply IH.
Qed.

Lemma framed_rewrite_lattice string token_type :
  framed (_rewrite_lattice string token_type).
Proof.
  unfold _rewrite_lattice. apply framed_bind; [apply framed_get_rules|].
  intros [|r rs]; [apply framed_raise|].
  apply framed_bind; [apply framed_rewrite_loop|].
  intros [s|f]; [apply framed_call; not_arcsort|apply framed_ret].
Qed.

Ltac framed_steps :=
  repeat first
    [ apply framed_rewrite_lattice
    | apply framed_ret
    | apply framed_with_default_token_type
    | apply framed_call; not_arcsort
    | apply framed_bind; [|intros ?] ].

Lemma framed_run op : framed (run op).
Proof.
  destruct op as [i o it [t|]| | | | |]; cbn;
    unfold matches, rewrites, top_rewrites, top_rewrite, one_top_rewrite,
      optimal_rewrites;
    framed_steps.
Qed.

(** ** Without rules *)

Lemma run_without_rules op w :
  rules (self w) = [] →
  run op w = (Raises (Error "No rules requested"), w).
Proof.
  intros Hrules.
  destruct op; cbn;
    unfold matches, rewrites, top_rewrites, top_rewrite, one_top_rewrite,
      optimal_rewrites, _rewrite_lattice, bind, get_rules;
    by rewrite Hrules.
Qed.

(** ** The lattice builder *)

Lemma foldl_compose_step_raises d token_type e rs :
  foldl (compose_step d token_type) (Raises e) rs = Raises e.
Proof. by induction rs. Qed.

Lemma rewrite_loop_fold rs lattice token_type w :
  (rewrite_loop lattice rs token_type w).1 =
  foldl (compose_step (default_token_type w) token_type) (Returns lattice) rs.
Proof.
  revert lattice w. induction rs as [|r rs IH]; intros lattice w; [done|].
  cbn [rewrite_loop foldl]. unfold bind at 1, call at 1.
  unfold compose_step at 2. cbn [result_bind].
  destruct (rewrite_lattice _ lattice r token_type) as [l|e]; cbn.
  - exact (IH (Prebuilt l) (log CallRewriteLattice w)).
  - by rewrite foldl_compose_step_raises.
Qed.

Lemma rewrite_lattice_build string token_type w :
  rules (self w) ≠ [] →
  (_rewrite_lattice string token_type w).1 =
  build_lattice (default_token_type w) string (rules (self w)) token_type.
Proof.
  intros Hne. unfold _rewrite_lattice, build_lattice, bind, get_rules.
  destruct (rules (self w)) as [|r rs] eqn:Hrules; [done|].
  rewrite <- (rewrite_loop_fold (r :: rs) string token_type w).
  pose proof (framed_rewrite_loop string (r :: rs) token_type w)
    as (_ & Hd & _).
  destruct (rewrite_loop string (r :: rs) token_type w) as [[[s|f]|e] w1];
    cbn in *; [|done..].
  unfold call. cbn. by rewrite Hd.
Qed.

(** What the builder returns came out of the composition with the last
    rule. *)
Lemma build_lattice_last d string rs token_type f :
  rs ≠ [] →
  build_lattice d string rs token_type = Returns f →
  ∃ init final previous,
    rs = init ++ [final]
    ∧ foldl (compose_step d token_type) (Returns string) init
      = Returns previous
    ∧ rewrite_lattice d previous final token_type = Returns f.
Proof.
  destruct rs as [|final init _] using rev_ind; [done|intros _].
  unfold build_lattice. rewrite foldl_app. cbn [foldl].
  unfold compose_step at 1.
  destruct (foldl _ _ init) as [previous|e] eqn:Hfold; cbn; [|done].
  destruct (rewrite_lattice d previous final token_type) as [l|e] eqn:Hl;
    cbn; [|done].
  intros [= ->]. by exists init, final, previous.
Qed.

(** ** What [matches] computes *)

Lemma matches_unfold istring ostring input_token_type output_token_type w :
  matches istring ostring input_token_type output_token_type w =
  match _rewrite_lattice istring input_token_type w with
  | (Returns l, w1) =>
      (result_map (λ x, bool_decide (start x ≠ NO_STATE_ID))
         (intersect (default (default_token_type w1) output_token_type)
            l ostring Sequence),
       log (CallIntersect Sequence) w1)
  | (Raises e, w1) => (Raises e, w1)
  end.
Proof.
  unfold matches. unfold bind at 1.
  destruct (_rewrite_lattice istring input_token_type w) as [[l|e] w1];
    [|done].
  unfold bind.
  destruct output_token_type as [t|]; cbn;
    by destruct (intersect _ l ostring Sequence).
Qed.

(** ** The claims about configuration and lattice building *)

(** C3: when some name is absent from the archive, [set_rules] clears the
    rule list, resolves the names in order and raises [Error] naming the
    first unresolved one; the rule list then holds the relations of the
    names before it and nothing else, and the log shows that no later name
    was looked up. *)
Theorem set_rules_stops_at_first_unresolved names w :
  Exists (λ n, entries (far (self w)) !! n = None) names →
  ∃ pre bad post w',
    names = pre ++ bad :: post
    ∧ Forall (λ n, is_Some (entries (far (self w)) !! n)) pre
    ∧ entries (far (self w)) !! bad = None
    ∧ set_rules names w = (Raises (Error ("Cannot find rule: " +:+ bad)), w')
    ∧ Forall2 (resolves_to (entries (far (self w)))) pre (rules (self w'))
    ∧ entries (far (self w')) = entries (far (self w))
    ∧ trace w' = trace w ++ resolve_events pre ++ [CallFarFind bad].
Proof.
  intros Hex.
  destruct (first_unresolved _ _ Hex) as (pre & bad & post & -> & Hpre & Hbad).
  destruct (resolved_names _ _ Hpre) as [gs Hgs].
  unfold set_rules, bind, rules_clear.
  match goal with
  | |- context [set_rules_loop _ ?w0] =>
      destruct (set_rules_loop_prefix pre (bad :: post) gs w0 Hgs)
        as (w1 & Hrun & Hent & Hrules & Hdef & Htrace)
  end.
  cbn in Hent, Hrules, Htrace. rewrite Hrun.
  rewrite set_rules_loop_missing by (by rewrite Hent).
  eexists pre, bad, post, _.
  split; [done|]. split; [done|]. split; [done|]. split; [reflexivity|].
  cbn. split; [|split].
  - rewrite Hrules. by apply resolves_to_fmap.
  - done.
  - by rewrite Htrace, app_assoc.
Qed.

(** C4: on an empty rule list every rewrite operation raises
    [Error "No rules requested"], and the world it leaves is the one it
    found: no call into the library, hence no composition, comes before the
    check. *)
Theorem rewrite_family_requires_rules op w :
  rules (self w) = [] →
  run op w = (Raises (Error "No rules requested"), w).
Proof. apply run_without_rules. Qed.

(** C5: on a non-empty rule list [_rewrite_lattice] returns the left fold
    of [rewrite_lattice] over the rules, in list order, from the input, made
    an acceptor if it is not an automaton; what it returns is what the
    composition with the last rule returned. *)
Theorem rewrite_lattice_is_left_fold string token_type w :
  rules (self w) ≠ [] →
  (_rewrite_lattice string token_type w).1 =
    build_lattice (default_token_type w) string (rules (self w)) token_type
  ∧ ∀ f, (_rewrite_lattice string token_type w).1 = Returns f →
      ∃ init final previous,
        rules (self w) = init ++ [final]
        ∧ foldl (compose_step (default_token_type w) token_type)
            (Returns string) init = Returns previous
        ∧ rewrite_lattice (default_token_type w) previous final token_type
          = Returns f.
Proof.
  intros Hne. split; [by apply rewrite_lattice_build|].
  intros f. rewrite rewrite_lattice_build by done.
  by apply build_lattice_last.
Qed.

(** C9: when every name resolves, [set_rules] discards the previous rule
    list and leaves one relation per name, in the order given, each the
    archive's relation arc-sorted on input labels; the sort is called once
    per name at resolution, and no rewrite operation changes the rules or
    sorts again. *)
Theorem set_rules_replaces_rule_list names w :
  Forall (λ n, is_Some (entries (far (self w)) !! n)) names →
  ∃ w',
    set_rules names w = (Returns tt, w')
    ∧ Forall2 (resolves_to (entries (far (self w)))) names (rules (self w'))
    ∧ entries (far (self w')) = entries (far (self w))
    ∧ trace w' = trace w ++ resolve_events names
    ∧ ∀ op, extends_without_sorting w' (run op w').2.
Proof.
  intros Hall. destruct (resolved_names _ _ Hall) as [gs Hgs].
  unfold set_rules, bind, rules_clear.
  match goal with
  | |- context [set_rules_loop _ ?w0] =>
      destruct (set_rules_loop_prefix names [] gs w0 Hgs)
        as (w1 & Hrun & Hent & Hrules & Hdef & Htrace)
  end.
  cbn in Hent, Hrules, Htrace. rewrite app_nil_r in Hrun. rewrite Hrun.
  exists w1. split; [done|]. split; [|split; [done|split; [done|]]].
  - rewrite Hrules. by apply resolves_to_fmap.
  - intros op. apply framed_run.
Qed.

(** C10: [set_rules] on no names returns normally and leaves the rule list
    empty; every rewrite operation then raises
    [Error "No rules requested"]. *)
Theorem set_rules_accepts_no_names w :
  ∃ w',
    set_rules [] w = (Returns tt, w')
    ∧ rules (self w') = []
    ∧ far (self w') = far (self w)
    ∧ trace w' = trace w
    ∧ ∀ op, run op w' = (Raises (Error "No rules requested"), w').
Proof.
  eexists. split; [reflexivity|]. repeat split.
  intros op. by apply run_without_rules.
Qed.

End CascadeFacts.

(** * Facts about the path model *)

Module PathFacts.
Import PathModel.

(** ** Least weights *)








(** ** Determinization and pruning *)



Lemma determinize_outputs ps :
  olabels <$> determinize ps = remove_dups (olabels <$> ps).
Proof.
  unfold determinize. rewrite <- list_fmap_compose.
  rewrite <- (list_fmap_id (remove_dups _)) at 2.
  by apply list_fmap_ext.
Qed.

Lemma determinize_nil_inv ps : determinize ps = [] → ps = [].
Proof.
  destruct ps as [|p ps]; [done|]. intros Hd.
  assert (olabels p ∈ olabels <$> determinize (p :: ps)) as Hin.
  { rewrite determinize_outputs. apply elem_of_remove_dups. by left. }
  rewrite Hd in Hin. by apply elem_of_nil in Hin.
Qed.








(** ** The best path *)

Lemma best_path_Some ps b :
  best_path ps = Some b → b ∈ ps ∧ ∀ q, q ∈ ps → weight b ≤ weight q.
Proof.
  revert b. induction ps as [|p ps IH]; intros b; cbn; [done|].
  destruct (best_path ps) as [c|] eqn:Hc.
  - destruct (IH c eq_refl) as [Hin Hle].
    destruct (decide (weight c < weight p)); intros [= <-].
    + split; [by right|].
      intros q [->|Hq]%elem_of_cons; [lia|by apply Hle].
    + split; [by left|].
      intros q [->|Hq]%elem_of_cons; [lia|].
      specialize (Hle q Hq). lia.
  - intros [= <-]. destruct ps as [|p' ps]; [|cbn in Hc].
    + split; [by left|]. by intros q ->%list_elem_of_singleton.
    + destruct (best_path ps); [destruct (decide _)|]; done.
Qed.

Lemma best_path_is_Some ps : ps ≠ [] → is_Some (best_path ps).
Proof.
  destruct ps as [|p ps]; [done|]. intros _. cbn.
  destruct (best_path ps); [destruct (decide _)|]; by eexists.
Qed.


(** ** The lattice of an input *)

(** A lattice that [_rewrite_lattice] returns has a path, and building it
    leaves the cascade and the default token type as they were. *)
Lemma rewrite_lattice_returns (string : FstLike WFst) input_token_type
    (w w1 : World) (l : WFst) :
  _rewrite_lattice string input_token_type w = (Returns l, w1) →
  paths l ≠ []
  ∧ self w1 = self w
  ∧ default_token_type w1 = default_token_type w.
Proof.
  intros Hrun.
  pose proof (framed_rewrite_lattice string input_token_type w)
    as (Hs & Hd & _).
  rewrite Hrun in Hs, Hd. cbn in Hs, Hd. split; [|done].
  assert (rules (self w) ≠ []) as Hne.
  { intros Hnil. unfold _rewrite_lattice, bind, get_rules in Hrun.
    by rewrite Hnil in Hrun. }
  pose proof (rewrite_lattice_build string input_token_type w Hne) as Hb.
  rewrite Hrun in Hb. cbn [fst] in Hb. symmetry in Hb.
  destruct (build_lattice_last _ _ _ _ _ Hne Hb)
    as (_ & final & previous & _ & _ & Hl).
  cbn in Hl. unfold rewrite_lattice_fst in Hl.
  destruct (project_output _) as [|x xs]; [done|].
  by injection Hl as <-.
Qed.

(** ** The rewrite functions on a lattice that was built *)

Section OnLattice.
Context (string : FstLike WFst) (input_token_type : option Scheme).
Context (w w1 : World) (l : WFst).
Hypothesis Hlattice :
  _rewrite_lattice string input_token_type w = (Returns l, w1).


Lemma top_rewrite_value output_token_type :
  (top_rewrite string input_token_type output_token_type w).1
  = lattice_to_top_string_fst (default_token_type w) l output_token_type.
Proof.
  destruct (rewrite_lattice_returns _ _ _ _ _ Hlattice) as (_ & _ & Hd).
  unfold top_rewrite, bind. rewrite Hlattice. cbn. by rewrite Hd.
Qed.



Lemma top_rewrites_value nshortest output_token_type :
  (top_rewrites string nshortest input_token_type output_token_type w).1
  = Returns
      ((λ p, render (scheme_or (default_token_type w) output_token_type)
               (olabels p))
         <$> take (Z.to_nat nshortest) (merge_sort weight_le (paths l))).
Proof.
  destruct (rewrite_lattice_returns _ _ _ _ _ Hlattice) as (_ & _ & Hd).
  unfold top_rewrites, bind. rewrite Hlattice. cbn.
  unfold lattice_to_strings_fst. cbn. by rewrite Hd.
Qed.


End OnLattice.

(** ** Uniqueness of the top rewrite *)







(** ** The shortest paths *)

Local Instance weight_le_trans : Transitive weight_le.
Proof. unfold weight_le. intros p q r. lia. Qed.

Local Instance weight_le_total : Total weight_le.
Proof. unfold weight_le. intros p q. lia. Qed.

(** The first of the sorted paths is the unique best path. *)
Lemma shortest_unique_best ps p :
  p ∈ ps →
  (∀ q, q ∈ ps → q ≠ p → weight p < weight q) →
  take 1 (merge_sort weight_le ps) = [p].
Proof.
  intros Hp Hbest.
  pose proof (StronglySorted_merge_sort weight_le ps) as Hsorted.
  pose proof (merge_sort_Permutation weight_le ps) as Hperm.
  destruct (merge_sort weight_le ps) as [|h t].
  - rewrite <- Hperm in Hp. by apply elem_of_nil in Hp.
  - cbn. f_equal. destruct (decide (h = p)) as [|Hne]; [done|].
    assert (h ∈ ps) as Hh by (rewrite <- Hperm; by left).
    specialize (Hbest h Hh Hne).
    apply StronglySorted_inv in Hsorted as [_ Hle].
    rewrite Forall_forall in Hle.
    rewrite <- Hperm in Hp. apply elem_of_cons in Hp as [->|Hp]; [done|].
    specialize (Hle p Hp). unfold weight_le in Hle. lia.
Qed.

Lemma best_path_unique_best ps p :
  p ∈ ps →
  (∀ q, q ∈ ps → q ≠ p → weight p < weight q) →
  best_path ps = Some p.
Proof.
  intros Hp Hbest.
  destruct (best_path_is_Some ps) as [b Hb].
  { intros ->. by apply elem_of_nil in Hp. }
  rewrite Hb. f_equal.
  apply best_path_Some in Hb as [Hin Hle].
  destruct (decide (b = p)) as [|Hne]; [done|].
  specialize (Hbest b Hin Hne). specialize (Hle p Hp). lia.
Qed.

(** C7: on an input whose lattice has a unique best path,
    [top_rewrites] with [nshortest = 1] returns the one-element list of
    the string that [top_rewrite] returns. *)
Theorem top_rewrites_one_is_top_rewrite (string : FstLike WFst)
    (input_token_type output_token_type : option Scheme)
    (w w1 : World) (l : WFst) :
  _rewrite_lattice string input_token_type w = (Returns l, w1) →
  unique_best (paths l) →
  ∃ s,
    (top_rewrite string input_token_type output_token_type w).1 = Returns s
    ∧ (top_rewrites string 1 input_token_type output_token_type w).1
      = Returns [s].
Proof.
  intros Hl (p & Hp & Hbest).
  rewrite (top_rewrite_value _ _ _ _ _ Hl), (top_rewrites_value _ _ _ _ _ Hl).
  unfold lattice_to_top_string_fst.
  rewrite (best_path_unique_best _ _ Hp Hbest).
  change (Z.to_nat 1) with 1%nat.
  rewrite (shortest_unique_best _ _ Hp Hbest). by eexists.
Qed.

Lemma top_rewrites_one_is_top_rewrite_witness :
  unique_best (paths Samples.sixes)
  ∧ ∃ s,
      (top_rewrite (RawString "6") None None Samples.configured).1
      = Returns s
      ∧ (top_rewrites (RawString "6") 1 None None Samples.configured).1
        = Returns [s].
Proof.
  assert (unique_best (paths Samples.sixes)) as Hu.
  { exists (Samples.arc "six" "six" 1). split; [by left|].
    intros q [->|[->|[]%elem_of_nil]%elem_of_cons]%elem_of_cons;
      [done|intros _; cbn; lia]. }
  split; [exact Hu|].
  eapply (top_rewrites_one_is_top_rewrite (RawString "6") None None
            Samples.configured _ Samples.sixes); [reflexivity|exact Hu].
Defined.

(** ** Membership *)


Lemma start_fst_nonempty f : start_fst f ≠ NO_STATE_ID ↔ ∃ p, p ∈ paths f.
Proof.
  unfold start_fst. destruct (paths f) as [|p ps].
  - split; [done|]. by intros [p ?%elem_of_nil].
  - split; [|done]. intros _. exists p. by left.
Qed.



(** C6: [matches] builds the lattice of the input, intersects it with the
    output acceptor under the sequence filter, and returns whether the
    intersection has a start state, which it has exactly when it has a
    path. *)
Theorem matches_is_nonempty_intersection (istring ostring : FstLike WFst)
    (input_token_type output_token_type : option Scheme)
    (w w1 : World) (l : WFst) :
  _rewrite_lattice istring input_token_type w = (Returns l, w1) →
  ∃ x,
    intersect (default (default_token_type w1) output_token_type)
      l ostring Sequence = Returns x
    ∧ matches istring ostring input_token_type output_token_type w
      = (Returns (bool_decide (start x ≠ NO_STATE_ID)),
         log (CallIntersect Sequence) w1)
    ∧ (start x ≠ NO_STATE_ID ↔ ∃ p, p ∈ paths x).
Proof.
  intros Hl. eexists. split; [reflexivity|]. split.
  - by rewrite matches_unfold, Hl.
  - apply start_fst_nonempty.
Qed.

Lemma matches_is_nonempty_intersection_witness :
  ∃ x,
    intersect byte Samples.sixes (RawString "six") Sequence = Returns x
    ∧ matches (RawString "6") (RawString "six") None None Samples.configured
      = (Returns (bool_decide (start x ≠ NO_STATE_ID)),
         log (CallIntersect Sequence)
           (_rewrite_lattice (RawString "6") None Samples.configured).2)
    ∧ (start x ≠ NO_STATE_ID ↔ ∃ p, p ∈ paths x).
Proof.
  apply (matches_is_nonempty_intersection (RawString "6") (RawString "six")
           None None Samples.configured
           (_rewrite_lattice (RawString "6") None Samples.configured).2
           Samples.sixes).
  reflexivity.
Defined.






(** ** Optimal rewrites *)





End PathFacts.

(** * The claims about configuration, on sample cascades *)

Module Witnesses.
Import PathModel.

Lemma set_rules_stops_at_first_unresolved_witness :
  Exists (λ n, entries (far (self Samples.configured)) !! n = None)
    ["digits"; "missing"; "lowercase"]
  ∧ ∃ pre bad post w',
      ["digits"; "missing"; "lowercase"] = pre ++ bad :: post
      ∧ Forall (λ n, is_Some (entries (far (self Samples.configured)) !! n))
          pre
      ∧ entries (far (self Samples.configured)) !! bad = None
      ∧ set_rules ["digits"; "missing"; "lowercase"] Samples.configured
        = (Raises (Error ("Cannot find rule: " +:+ bad)), w')
      ∧ Forall2 (resolves_to (entries (far (self Samples.configured))))
          pre (rules (self w'))
      ∧ entries (far (self w')) = entries (far (self Samples.configured))
      ∧ trace w'
        = trace Samples.configured ++ resolve_events pre
          ++ [CallFarFind bad].
Proof.
  assert (Exists (λ n, entries (far (self Samples.configured)) !! n = None)
            ["digits"; "missing"; "lowercase"]) as Hex.
  { apply Exists_cons_tl, Exists_cons_hd. reflexivity. }
  split; [exact Hex|].
  exact (set_rules_stops_at_first_unresolved _ Samples.configured Hex).
Defined.

Lemma rewrite_family_requires_rules_witness :
  rules (self Samples.fresh) = []
  ∧ run (TopRewrite (RawString "5") None None) Samples.fresh
    = (Raises (Error "No rules requested"), Samples.fresh).
Proof.
  split; [reflexivity|].
  apply rewrite_family_requires_rules. reflexivity.
Defined.

Lemma rewrite_lattice_is_left_fold_witness :
  rules (self Samples.configured) ≠ []
  ∧ (_rewrite_lattice (RawString "6") None Samples.configured).1
    = build_lattice byte (RawString "6")
        [arcsort ILabel Samples.digits; arcsort ILabel Samples.lowercase]
        None.
Proof.
  assert (rules (self Samples.configured) ≠ []) as Hne by discriminate.
  split; [exact Hne|].
  exact (proj1 (rewrite_lattice_is_left_fold (RawString "6") None
                  Samples.configured Hne)).
Defined.

Lemma set_rules_replaces_rule_list_witness :
  Forall (λ n, is_Some (entries (far (self Samples.mismatched)) !! n))
    ["digits"; "lowercase"]
  ∧ ∃ w',
      set_rules ["digits"; "lowercase"] Samples.mismatched = (Returns tt, w')
      ∧ Forall2 (resolves_to (entries (far (self Samples.mismatched))))
          ["digits"; "lowercase"] (rules (self w'))
      ∧ entries (far (self w')) = entries (far (self Samples.mismatched))
      ∧ trace w'
        = trace Samples.mismatched
          ++ resolve_events ["digits"; "lowercase"]
      ∧ ∀ op, extends_without_sorting w' (run op w').2.
Proof.
  assert (Forall
            (λ n, is_Some (entries (far (self Samples.mismatched)) !! n))
            ["digits"; "lowercase"]) as Hall.
  { repeat constructor; by eexists. }
  split; [exact Hall|].
  exact (set_rules_replaces_rule_list _ Samples.mismatched Hall).
Defined.

End Witnesses.

(** * Laws of the cascade, over any implementation of the library *)

Section CascadeLaws.
Context `{Pynini}.

(** ** [set_rules] against its functional description *)

Lemma set_rules_loop_spec (names : list string) (w : World) :
  (set_rules_loop names w).1
  = match first_missing (entries (far (self w))) names with
    | None => Returns tt
    | Some bad => Raises (Error ("Cannot find rule: " +:+ bad))
    end
  ∧ rules (self (set_rules_loop names w).2)
    = rules (self w) ++ resolved_prefix (entries (far (self w))) names
  ∧ entries (far (self (set_rules_loop names w).2))
    = entries (far (self w))
  ∧ default_token_type (set_rules_loop names w).2 = default_token_type w
  ∧ ∃ evs, trace (set_rules_loop names w).2 = trace w ++ evs
           ∧ Forall is_resolution evs.
Proof.
  revert w. induction names as [|n names IH]; intros w.
  - cbn. rewrite app_nil_r. repeat split. exists [].
    by rewrite app_nil_r.
  - destruct (entries (far (self w)) !! n) as [g|] eqn:Hn.
    + rewrite (set_rules_loop_found _ _ _ _ Hn). cbn [first_missing
        resolved_prefix]. rewrite Hn.
      match goal with
      | |- context [set_rules_loop names ?w1] =>
          destruct (IH w1) as (Hr & Hrules & Hent & Hdef & evs & Ht & Hev)
      end.
      cbn in Hr, Hrules, Hent, Hdef, Ht.
      rewrite Hr, Hrules, Hent, Hdef, Ht, <- !app_assoc.
      repeat split.
      exists ([CallFarFind n; CallFarGetFst; CallArcsort ILabel] ++ evs).
      split; [done|]. by repeat constructor.
    + rewrite (set_rules_loop_missing _ _ _ Hn). cbn. rewrite Hn, app_nil_r.
      repeat split. exists [CallFarFind n]. split; [done|].
      by repeat constructor.
Qed.

Lemma set_rules_spec (names : list string) (w : World) :
  (set_rules names w).1
  = match first_missing (entries (far (self w))) names with
    | None => Returns tt
    | Some bad => Raises (Error ("Cannot find rule: " +:+ bad))
    end
  ∧ rules (self (set_rules names w).2)
    = resolved_prefix (entries (far (self w))) names
  ∧ entries (far (self (set_rules names w).2)) = entries (far (self w))
  ∧ default_token_type (set_rules names w).2 = default_token_type w
  ∧ ∃ evs, trace (set_rules names w).2 = trace w ++ evs
           ∧ Forall is_resolution evs.
Proof.
  unfold set_rules, bind, rules_clear.
  match goal with
  | |- context [set_rules_loop names ?w0] =>
      pose proof (set_rules_loop_spec names w0) as Hspec
  end.
  cbn in Hspec.
  destruct (set_rules_loop names _) as [[[]|e] w1]; exact Hspec.
Qed.

Lemma first_missing_None (archive : gmap string Fst) (names : list string) :
  first_missing archive names = None
  ↔ Forall (λ n, is_Some (archive !! n)) names.
Proof.
  induction names as [|n names IH]; cbn; [by split|].
  rewrite Forall_cons, <- IH.
  destruct (archive !! n) as [g|] eqn:Hn.
  - split; [|by intros []]. intros Hm. split; [by eexists|done].
  - split; [done|]. intros [[g Hg] _]. congruence.
Qed.

Lemma first_missing_Some (archive : gmap string Fst) (names : list string)
    (bad : string) :
  first_missing archive names = Some bad →
  bad ∈ names ∧ archive !! bad = None.
Proof.
  induction names as [|n names IH]; cbn; [done|].
  destruct (archive !! n) as [g|] eqn:Hn.
  - intros [Hin Hbad]%IH. split; [by right|done].
  - intros [= <-]. split; [by left|done].
Qed.

Lemma resolved_prefix_length (archive : gmap string Fst)
    (names : list string) :
  (length (resolved_prefix archive names) ≤ length names)%nat.
Proof.
  induction names as [|n names IH]; cbn; [done|].
  destruct (archive !! n); cbn; lia.
Qed.

Lemma resolved_prefix_app (archive : gmap string Fst) (a b : list string) :
  Forall (λ n, is_Some (archive !! n)) a →
  resolved_prefix archive (a ++ b)
  = resolved_prefix archive a ++ resolved_prefix archive b
  ∧ first_missing archive (a ++ b) = first_missing archive b.
Proof.
  induction 1 as [|n a [g Hg] _ [IHr IHm]]; cbn; [done|].
  rewrite Hg. cbn. by rewrite IHr, IHm.
Qed.

(** X1: the last call to [set_rules] decides the configuration: after any
    earlier call, failed or not, [set_rules] has the outcome and leaves the
    rule list it would have had without it. *)
Theorem set_rules_last_call_wins (earlier names : list string) (w : World) :
  (set_rules names (set_rules earlier w).2).1 = (set_rules names w).1
  ∧ rules (self (set_rules names (set_rules earlier w).2).2)
    = rules (self (set_rules names w).2).
Proof.
  destruct (set_rules_spec earlier w) as (_ & _ & Hent & _).
  destruct (set_rules_spec names (set_rules earlier w).2)
    as (Hr1 & Hrules1 & _).
  destruct (set_rules_spec names w) as (Hr2 & Hrules2 & _).
  rewrite Hr1, Hr2, Hrules1, Hrules2. by rewrite Hent.
Qed.

(** X2: [set_rules] returns normally exactly when the archive has every
    name; when it raises, it raises [Error "Cannot find rule: ..."] for a
    name of the list that the archive does not have, and nothing else. *)
Theorem set_rules_returns_iff_all_resolve (names : list string) (w : World) :
  ((set_rules names w).1 = Returns tt
   ↔ Forall (λ n, is_Some (entries (far (self w)) !! n)) names)
  ∧ ∀ e, (set_rules names w).1 = Raises e →
      ∃ bad, bad ∈ names
             ∧ entries (far (self w)) !! bad = None
             ∧ e = Error ("Cannot find rule: " +:+ bad).
Proof.
  destruct (set_rules_spec names w) as (Hr & _). rewrite Hr.
  rewrite <- first_missing_None.
  destruct (first_missing _ names) as [bad|] eqn:Hm.
  - split; [by split|]. intros e [= <-].
    apply first_missing_Some in Hm as [Hin Hbad]. by exists bad.
  - by split.
Qed.

(** X3: whatever its outcome, [set_rules] leaves the contents of the
    archive and the default token type as they were, makes no call other
    than [find], [get_fst] and [arcsort] on input labels, and leaves at
    most one rule per name. *)
Theorem set_rules_touches_only_the_rule_list (names : list string)
    (w : World) :
  entries (far (self (set_rules names w).2)) = entries (far (self w))
  ∧ default_token_type (set_rules names w).2 = default_token_type w
  ∧ (∃ evs, trace (set_rules names w).2 = trace w ++ evs
            ∧ Forall is_resolution evs)
  ∧ (length (rules (self (set_rules names w).2)) ≤ length names)%nat.
Proof.
  destruct (set_rules_spec names w) as (_ & Hrules & Hent & Hdef & Hev).
  rewrite Hrules. repeat split; try done. apply resolved_prefix_length.
Qed.

(** X4: after [set_rules], failed or not, the cascade has no rules exactly
    when the list of names was empty or its first name is not in the
    archive; every rewrite operation then raises
    [Error "No rules requested"], whatever rules the cascade had before. *)
Theorem set_rules_unconfigured_iff_first_name_missing (names : list string)
    (w : World) :
  (rules (self (set_rules names w).2) = []
   ↔ head names ≫= (λ n, entries (far (self w)) !! n) = None)
  ∧ (head names ≫= (λ n, entries (far (self w)) !! n) = None →
     ∀ op, run op (set_rules names w).2
           = (Raises (Error "No rules requested"), (set_rules names w).2)).
Proof.
  destruct (set_rules_spec names w) as (_ & Hrules & _).
  assert (rules (self (set_rules names w).2) = []
          ↔ head names ≫= (λ n, entries (far (self w)) !! n) = None)
    as Hiff.
  { rewrite Hrules. destruct names as [|n names]; cbn; [done|].
    by destruct (entries (far (self w)) !! n). }
  split; [exact Hiff|]. intros Hhead op.
  apply run_without_rules. by apply Hiff.
Qed.

(** X5: [set_rules] goes through a concatenation in order: when the
    archive has every name of [a], [set_rules (a ++ b)] has the outcome of
    [set_rules b] and leaves the rules of [set_rules a] followed by those
    of [set_rules b]. *)
Theorem set_rules_over_concatenation (a b : list string) (w : World) :
  Forall (λ n, is_Some (entries (far (self w)) !! n)) a →
  (set_rules (a ++ b) w).1 = (set_rules b w).1
  ∧ rules (self (set_rules (a ++ b) w).2)
    = rules (self (set_rules a w).2) ++ rules (self (set_rules b w).2).
Proof.
  intros Ha.
  destruct (resolved_prefix_app _ a b Ha) as [Happ Hmiss].
  destruct (set_rules_spec (a ++ b) w) as (Hr & Hrules & _).
  destruct (set_rules_spec a w) as (_ & Hrules_a & _).
  destruct (set_rules_spec b w) as (Hr_b & Hrules_b & _).
  by rewrite Hr, Hrules, Hr_b, Hrules_a, Hrules_b, Happ, Hmiss.
Qed.

(** ** The calls of the lattice builder *)

Lemma rewrite_loop_log (rs : list Fst) (lattice : FstLike Fst)
    (token_type : option TokenType) (w : World) :
  ∃ k,
    trace (rewrite_loop lattice rs token_type w).2
    = trace w ++ replicate k CallRewriteLattice
    ∧ (k ≤ length rs)%nat
    ∧ (∀ x, (rewrite_loop lattice rs token_type w).1 = Returns x →
         k = length rs
         ∧ (rs = [] → x = lattice)
         ∧ (rs ≠ [] → ∃ f, x = Prebuilt f))
    ∧ (∀ e, (rewrite_loop lattice rs token_type w).1 = Raises e →
         (0 < k)%nat
         ∧ ∃ previous r,
             rs !! (k - 1)%nat = Some r
             ∧ rewrite_lattice (default_token_type w) previous r token_type
               = Raises e).
Proof.
  revert lattice w. induction rs as [|r rs IH]; intros lattice w.
  - exists 0%nat. cbn. rewrite app_nil_r.
    split; [done|]. split; [done|]. split; [|done].
    intros x [= <-]. by repeat split.
  - assert (rewrite_loop lattice (r :: rs) token_type w
            = match rewrite_lattice (default_token_type w) lattice r
                      token_type with
              | Returns l =>
                  rewrite_loop (Prebuilt l) rs token_type
                    (log CallRewriteLattice w)
              | Raises e => (Raises e, log CallRewriteLattice w)
              end) as ->.
    { cbn [rewrite_loop]. unfold bind, call.
      by destruct (rewrite_lattice _ lattice r token_type). }
    destruct (rewrite_lattice (default_token_type w) lattice r token_type)
      as [l|e0] eqn:Hl.
    + destruct (IH (Prebuilt l) (log CallRewriteLattice w))
        as (k & Ht & Hk & Hret & Hraise).
      exists (S k). cbn in Ht. rewrite Ht, <- app_assoc.
      split; [done|]. split; [cbn; lia|]. split.
      * intros x Hx. destruct (Hret x Hx) as (-> & Hnil & Hcons).
        split; [done|]. split; [done|]. intros _.
        destruct rs as [|r' rs]; [|by apply Hcons].
        exists l. by apply Hnil.
      * intros e He. destruct (Hraise e He) as (Hpos & prev & r' & Hr' & Hp).
        split; [lia|]. exists prev, r'. split; [|done].
        replace (S k - 1)%nat with (S (k - 1)) by lia. done.
    + exists 1%nat. cbn. split; [done|]. split; [lia|]. split; [done|].
      intros e [= <-]. split; [lia|]. by exists lattice, r.
Qed.

(** X6: on a non-empty rule list [_rewrite_lattice] calls
    [rewrite_lattice] and nothing else, once per rule in order and up to
    the first call that raises: it never calls [accep], every rule is
    composed when it returns, and an exception it raises is the one that
    the composition with the rule it stopped at raised. *)
Theorem rewrite_lattice_composes_rule_by_rule (string : FstLike Fst)
    (token_type : option TokenType) (w : World) :
  rules (self w) ≠ [] →
  ∃ k,
    trace (_rewrite_lattice string token_type w).2
    = trace w ++ replicate k CallRewriteLattice
    ∧ (0 < k ≤ length (rules (self w)))%nat
    ∧ (∀ f, (_rewrite_lattice string token_type w).1 = Returns f →
         k = length (rules (self w)))
    ∧ (∀ e, (_rewrite_lattice string token_type w).1 = Raises e →
         ∃ previous r,
           rules (self w) !! (k - 1)%nat = Some r
           ∧ rewrite_lattice (default_token_type w) previous r token_type
             = Raises e).
Proof.
  intros Hne. unfold _rewrite_lattice, bind, get_rules.
  destruct (rules (self w)) as [|r rs] eqn:Hrules; [done|].
  destruct (rewrite_loop_log (r :: rs) string token_type w)
    as (k & Ht & Hk & Hret & Hraise).
  destruct (rewrite_loop string (r :: rs) token_type w) as [[x|e] w1];
    cbn in *.
  - destruct (Hret x eq_refl) as (-> & _ & [f ->]); [done|].
    exists (S (length rs)). cbn. split; [done|]. split; [lia|].
    split; [done|]. by intros e.
  - destruct (Hraise e eq_refl) as (Hpos & prev & r' & Hr' & Hp).
    exists k. split; [done|]. split; [lia|]. split; [done|].
    intros e' [= <-]. by exists prev, r'.
Qed.

(** ** Cascades in sequence *)

Lemma foldl_compose_step_prebuilt (d : TokenType)
    (token_type : option TokenType) (rs : list Fst)
    (acc : Result (FstLike Fst)) (x : FstLike Fst) :
  rs ≠ [] →
  foldl (compose_step d token_type) acc rs = Returns x →
  ∃ f, x = Prebuilt f.
Proof.
  destruct rs as [|final init _] using rev_ind; [done|intros _].
  rewrite foldl_app. cbn. unfold compose_step at 1.
  destruct (foldl _ _ init) as [previous|e]; cbn; [|done].
  destruct (rewrite_lattice d previous final token_type) as [l|e]; cbn;
    [|done].
  intros [= <-]. by exists l.
Qed.

Lemma build_lattice_app (d : TokenType) (string : FstLike Fst)
    (a b : list Fst) (token_type : option TokenType) :
  a ≠ [] →
  build_lattice d string (a ++ b) token_type
  = result_bind (build_lattice d string a token_type)
      (λ f, build_lattice d (Prebuilt f) b token_type).
Proof.
  intros Ha. unfold build_lattice. rewrite foldl_app.
  destruct (foldl (compose_step d token_type) (Returns string) a)
    as [x|e] eqn:Hfold; cbn.
  - destruct (foldl_compose_step_prebuilt _ _ _ _ _ Ha Hfold) as [f ->].
    done.
  - by rewrite foldl_compose_step_raises.
Qed.

(** X7: a cascade is its first rules followed by its last rules: the
    lattice that [_rewrite_lattice] builds over the rule list [a ++ b] is
    the one it builds over [b], from the lattice it builds over [a] passed
    as the input; a failure over [a] is the failure of the whole. *)
Theorem rewrite_lattice_in_sequence (string : FstLike Fst)
    (token_type : option TokenType) (a b : list Fst) (w : World) :
  a ≠ [] → b ≠ [] →
  (_rewrite_lattice string token_type (with_rules (a ++ b) w)).1
  = result_bind (_rewrite_lattice string token_type (with_rules a w)).1
      (λ f, (_rewrite_lattice (Prebuilt f) token_type (with_rules b w)).1).
Proof.
  intros Ha Hb.
  rewrite (rewrite_lattice_build string token_type (with_rules (a ++ b) w))
    by (cbn; by destruct a).
  rewrite (rewrite_lattice_build string token_type (with_rules a w))
    by done.
  change (rules (self (with_rules (a ++ b) w))) with (a ++ b).
  change (rules (self (with_rules a w))) with a.
  change (default_token_type (with_rules (a ++ b) w))
    with (default_token_type w).
  change (default_token_type (with_rules a w)) with (default_token_type w).
  rewrite build_lattice_app by done.
  destruct (build_lattice _ string a token_type) as [f|e];
    cbn [result_bind]; [|done].
  by rewrite (rewrite_lattice_build (Prebuilt f) token_type (with_rules b w)).
Qed.

(** ** The calls of the rewrite operations *)

Lemma rewrite_lattice_log (string : FstLike Fst)
    (token_type : option TokenType) (w : World) :
  ∃ k,
    trace (_rewrite_lattice string token_type w).2
    = trace w ++ replicate k CallRewriteLattice
    ∧ ∀ f, (_rewrite_lattice string token_type w).1 = Returns f →
        k = length (rules (self w)).
Proof.
  unfold _rewrite_lattice, bind, get_rules.
  destruct (rules (self w)) as [|r rs] eqn:Hrules.
  { exists 0%nat. cbn. by rewrite app_nil_r. }
  destruct (rewrite_loop_log (r :: rs) string token_type w)
    as (k & Ht & _ & Hret & _).
  destruct (rewrite_loop string (r :: rs) token_type w) as [[x|e] w1];
    cbn in *; [|by exists k].
  destruct (Hret x eq_refl) as (-> & _ & [f ->]); [done|].
  by exists (S (length rs)).
Qed.

Ltac log_leaf Ht Hk :=
  match goal with
  | Hrun : _ = (_, _) |- _ => cbn in Hrun; injection Hrun as <- <-
  end;
  cbn; rewrite ?Ht, <- ?app_assoc;
  eexists _, _; split; [reflexivity|];
  split; [by eexists|];
  intros ? ?; first [discriminate | split; [by eapply Hk|reflexivity]].

Lemma run_calls (op : RewriteOp) (w w' : World) (r : Result Answer) :
  run op w = (r, w') →
  ∃ k evs,
    trace w' = trace w ++ replicate k CallRewriteLattice ++ evs
    ∧ evs `prefix_of` op_calls op
    ∧ ∀ a, r = Returns a →
        k = length (rules (self w)) ∧ evs = op_calls op.
Proof.
  intros Hrun.
  pose proof (rewrite_lattice_log (op_input op) (op_input_token_type op) w)
    as (k & Ht & Hk).
  destruct op as [i o it ot|i it ot sm|i n it ot|i it ot|i it ot sm
                 |i it ot sm];
    cbn [run op_input op_input_token_type op_calls] in *;
    unfold matches, rewrites, top_rewrites, top_rewrite, one_top_rewrite,
      optimal_rewrites, bind in Hrun;
    destruct (_rewrite_lattice i it w) as [[l|e] w1]; cbn [fst snd] in *;
    try (injection Hrun as <- <-; exists k, []; rewrite app_nil_r;
         split; [done|]; split; [apply prefix_nil|done]).
  - destruct ot as [t|]; unfold with_default_token_type, call in Hrun;
      cbn in Hrun; destruct (intersect _ l o Sequence); log_leaf Ht Hk.
  - unfold call in Hrun.
    destruct (lattice_to_dfa l false sm) as [l'|e]; [|log_leaf Ht Hk].
    cbn in Hrun. destruct (lattice_to_strings _ l' ot); log_leaf Ht Hk.
  - unfold call in Hrun.
    destruct (lattice_to_nshortest l n) as [l'|e]; [|log_leaf Ht Hk].
    cbn in Hrun. destruct (lattice_to_strings _ l' ot); log_leaf Ht Hk.
  - unfold call in Hrun.
    cbn in Hrun. destruct (lattice_to_top_string _ l ot); log_leaf Ht Hk.
  - unfold call in Hrun.
    destruct (lattice_to_dfa l true sm) as [l'|e]; [|log_leaf Ht Hk].
    cbn in Hrun. destruct (lattice_to_one_top_string _ l' ot);
      log_leaf Ht Hk.
  - unfold call in Hrun.
    destruct (lattice_to_dfa l true sm) as [l'|e]; [|log_leaf Ht Hk].
    cbn in Hrun. destruct (lattice_to_strings _ l' ot); log_leaf Ht Hk.
Qed.

(** X8: whatever its outcome, a rewrite operation calls
    [rewrite_lattice] some number of times and then a first part of its
    own extraction calls, in their order ([matches]: [intersect] under the
    sequence filter; [rewrites]: [lattice_to_dfa] without pruning, then
    [lattice_to_strings]; and so on); when it returns, it has composed
    every rule once and made all of its extraction calls. *)
Theorem rewrite_operation_calls (op : RewriteOp) (w : World) :
  ∃ k evs,
    trace (run op w).2 = trace w ++ replicate k CallRewriteLattice ++ evs
    ∧ evs `prefix_of` op_calls op
    ∧ ∀ a, (run op w).1 = Returns a →
        k = length (rules (self w)) ∧ evs = op_calls op.
Proof.
  destruct (run op w) as [r w'] eqn:Hrun. by apply run_calls.
Qed.

(** X9: when the lattice of its input cannot be built, a rewrite operation
    raises what the builder raised and leaves the world the builder left:
    no extraction is attempted. *)
Theorem rewrite_operation_fails_with_builder (op : RewriteOp) (e : Exn)
    (w w1 : World) :
  _rewrite_lattice (op_input op) (op_input_token_type op) w = (Raises e, w1) →
  run op w = (Raises e, w1).
Proof.
  intros Hl.
  destruct op; cbn [run op_input op_input_token_type] in *;
    unfold matches, rewrites, top_rewrites, top_rewrite, one_top_rewrite,
      optimal_rewrites, bind;
    by rewrite Hl.
Qed.

(** X10: [matches] intersects under [output_token_type] when it is given
    and under the default token type in force otherwise; what [intersect]
    raises, [matches] raises; and in either case the cascade and the
    default token type are afterwards what they were before the call. *)
Theorem matches_output_token_type (istring ostring : FstLike Fst)
    (input_token_type output_token_type : option TokenType)
    (w w1 : World) (l : Fst) :
  _rewrite_lattice istring input_token_type w = (Returns l, w1) →
  (matches istring ostring input_token_type output_token_type w).1
  = result_map (λ x, bool_decide (start x ≠ NO_STATE_ID))
      (intersect (default (default_token_type w) output_token_type)
         l ostring Sequence)
  ∧ default_token_type
      (matches istring ostring input_token_type output_token_type w).2
    = default_token_type w
  ∧ self (matches istring ostring input_token_type output_token_type w).2
    = self w.
Proof.
  intros Hl.
  pose proof (framed_rewrite_lattice istring input_token_type w)
    as (Hs & Hd & _).
  rewrite Hl in Hs, Hd. cbn in Hs, Hd.
  rewrite matches_unfold, Hl. cbn. by rewrite Hd.
Qed.

(** ** From construction to the first lattice *)

Lemma resolved_prefix_all (archive : gmap string Fst) (names : list string)
    (gs : list Fst) :
  Forall2 (λ n g, archive !! n = Some g) names gs →
  resolved_prefix archive names = arcsort ILabel <$> gs.
Proof.
  induction 1 as [|n g names gs Hn _ IH]; cbn; [done|].
  by rewrite Hn, IH.
Qed.

(** X11: a cascade fresh from [__init__] has no rules, so that every
    rewrite operation raises [Error "No rules requested"]; once
    [set_rules] has been given a non-empty list of names that the archive
    has, [_rewrite_lattice] is the left fold of [rewrite_lattice] over the
    archive's relations under these names, arc-sorted on input labels, in
    the order of the names. *)
Theorem fresh_cascade_then_set_rules (archive : gmap string Fst)
    (d : TokenType) :
  (∀ op, run op (initial_world archive d)
         = (Raises (Error "No rules requested"), initial_world archive d))
  ∧ ∀ (names : list string) (gs : list Fst) (string : FstLike Fst)
      (token_type : option TokenType),
      names ≠ [] →
      Forall2 (λ n g, archive !! n = Some g) names gs →
      (_rewrite_lattice string token_type
         (set_rules names (initial_world archive d)).2).1
      = build_lattice d string (arcsort ILabel <$> gs) token_type.
Proof.
  split; [intros op; by apply run_without_rules|].
  intros names gs string token_type Hne Hall.
  destruct (set_rules_spec names (initial_world archive d))
    as (_ & Hrules & _ & Hdef & _).
  change (entries (far (self (initial_world archive d)))) with archive
    in Hrules.
  change (default_token_type (initial_world archive d)) with d in Hdef.
  rewrite (resolved_prefix_all _ _ _ Hall) in Hrules.
  rewrite rewrite_lattice_build, Hrules, Hdef; [done|].
  rewrite Hrules. destruct Hall; [done|]. by cbn.
Qed.

End CascadeLaws.

(** * The laws on sample cascades *)

Module LawWitnesses.
Import PathModel.

Lemma set_rules_over_concatenation_witness :
  Forall (λ n, is_Some (entries (far (self Samples.fresh)) !! n)) ["digits"]
  ∧ (set_rules (["digits"] ++ ["missing"; "roman"]) Samples.fresh).1
    = (set_rules ["missing"; "roman"] Samples.fresh).1
  ∧ rules (self (set_rules (["digits"] ++ ["missing"; "roman"])
                   Samples.fresh).2)
    = rules (self (set_rules ["digits"] Samples.fresh).2)
      ++ rules (self (set_rules ["missing"; "roman"] Samples.fresh).2).
Proof.
  assert (Forall (λ n, is_Some (entries (far (self Samples.fresh)) !! n))
            ["digits"]) as Ha.
  { repeat constructor; by eexists. }
  split; [exact Ha|].
  exact (set_rules_over_concatenation ["digits"] ["missing"; "roman"]
           Samples.fresh Ha).
Defined.

Lemma rewrite_lattice_composes_rule_by_rule_witness :
  rules (self Samples.mismatched) ≠ []
  ∧ ∃ k,
      trace (_rewrite_lattice (RawString "5") None Samples.mismatched).2
      = trace Samples.mismatched ++ replicate k CallRewriteLattice
      ∧ (0 < k ≤ length (rules (self Samples.mismatched)))%nat
      ∧ (∀ f, (_rewrite_lattice (RawString "5") None
                 Samples.mismatched).1 = Returns f →
           k = length (rules (self Samples.mismatched)))
      ∧ (∀ e, (_rewrite_lattice (RawString "5") None
                 Samples.mismatched).1 = Raises e →
           ∃ previous r,
             rules (self Samples.mismatched) !! (k - 1)%nat = Some r
             ∧ rewrite_lattice (default_token_type Samples.mismatched)
                 previous r None = Raises e).
Proof.
  assert (rules (self Samples.mismatched) ≠ []) as Hne by discriminate.
  split; [exact Hne|].
  exact (rewrite_lattice_composes_rule_by_rule (RawString "5") None
           Samples.mismatched Hne).
Defined.

Lemma rewrite_lattice_in_sequence_witness :
  [Samples.digits] ≠ [] ∧ [Samples.lowercase] ≠ []
  ∧ (_rewrite_lattice (RawString "6") None
       (with_rules ([Samples.digits] ++ [Samples.lowercase])
          Samples.fresh)).1
    = result_bind
        (_rewrite_lattice (RawString "6") None
           (with_rules [Samples.digits] Samples.fresh)).1
        (λ f, (_rewrite_lattice (Prebuilt f) None
                 (with_rules [Samples.lowercase] Samples.fresh)).1).
Proof.
  assert ([Samples.digits] ≠ []) as Ha by discriminate.
  assert ([Samples.lowercase] ≠ []) as Hb by discriminate.
  split; [exact Ha|]. split; [exact Hb|].
  exact (rewrite_lattice_in_sequence (RawString "6") None [Samples.digits]
           [Samples.lowercase] Samples.fresh Ha Hb).
Defined.

Lemma rewrite_operation_fails_with_builder_witness :
  (_rewrite_lattice (RawString "7") None Samples.configured).1
  = Raises (LibraryError ComposeFailure)
  ∧ run (Rewrites (RawString "7") None None 4) Samples.configured
    = (Raises (LibraryError ComposeFailure),
       (_rewrite_lattice (RawString "7") None Samples.configured).2).
Proof.
  split; [reflexivity|].
  apply (rewrite_operation_fails_with_builder
           (Rewrites (RawString "7") None None 4)).
  reflexivity.
Defined.

Lemma matches_output_token_type_witness :
  (_rewrite_lattice (RawString "6") None Samples.configured).1
  = Returns Samples.sixes
  ∧ (matches (RawString "6") (RawString "six") None (Some byte)
       Samples.configured).1
    = result_map (λ x, bool_decide (start x ≠ NO_STATE_ID))
        (intersect byte Samples.sixes (RawString "six") Sequence)
  ∧ default_token_type
      (matches (RawString "6") (RawString "six") None (Some byte)
         Samples.configured).2
    = default_token_type Samples.configured.
Proof.
  split; [reflexivity|].
  destruct (matches_output_token_type (H:=path_model)
              (RawString "6") (RawString "six")
              None (Some byte) Samples.configured
              (_rewrite_lattice (RawString "6") None Samples.configured).2
              Samples.sixes eq_refl) as (Hv & Hd & _).
  split; [exact Hv|exact Hd].
Defined.

Lemma fresh_cascade_then_set_rules_witness :
  ["digits"; "lowercase"] ≠ []
  ∧ Forall2 (λ n g, Samples.archive !! n = Some g) ["digits"; "lowercase"]
      [Samples.digits; Samples.lowercase]
  ∧ (_rewrite_lattice (RawString "6") None
       (set_rules ["digits"; "lowercase"]
          (initial_world Samples.archive byte)).2).1
    = build_lattice byte (RawString "6")
        (arcsort ILabel <$> [Samples.digits; Samples.lowercase]) None.
Proof.
  assert (["digits"; "lowercase"] ≠ []) as Hne by discriminate.
  assert (Forall2 (λ n g, Samples.archive !! n = Some g)
            ["digits"; "lowercase"] [Samples.digits; Samples.lowercase])
    as Hall by (repeat constructor).
  split; [exact Hne|]. split; [exact Hall|].
  exact (proj2 (fresh_cascade_then_set_rules Samples.archive byte)
           ["digits"; "lowercase"] [Samples.digits; Samples.lowercase]
           (RawString "6") None Hne Hall).
Defined.

End LawWitnesses.
